(** * getOrInsert: get a key's value, or install a fallback and return it

    Source: packages/toolkit/src/query/utils/getOrInsert.ts

    The helper is written against the three methods [has], [get] and [set]
    that ECMAScript's [Map] and [WeakMap] share.  Both collections keep their
    state as a list of key/value records ([[MapData]], [[WeakMapData]]); the
    methods walk that list and compare keys with SameValueZero.  The
    development models that list, the three methods on it, and the helper
    as a state-passing function: a call takes the state of the map object
    and returns the result together with the state the object is left in.

    The body of the helper calls the methods of the object it is given, so
    it is written once, over a receiver that brings its own [has], [get]
    and [set]; the helper on a built-in [Map] is that body with [Map]'s
    methods. *)

From stdpp Require Import base option list strings.
From Stdlib Require Import ZArith.

(** ** The built-in [Map] *)

Module Map.
Section Map.
(** Keys are compared with SameValueZero, an equivalence relation on
    JavaScript values; [K] is the type of keys up to that relation, so it
    comes with a decidable equality. *)
Context {K V : Type} `{EqDecision K}.

(** The records of the map, oldest insertion first. *)
Definition t : Type := list (K * V).

(** [new Map()] *)
Definition empty : t := [].

(** [map.has(key)] *)
Fixpoint has (map : t) (key : K) : bool :=
  match map with
  | [] => false
  | (k, _) :: rest => if decide (k = key) then true else has rest key
  end.

(** [map.get(key)]; [None] stands for the [undefined] that a failed
    lookup yields.  A stored [undefined] is a value of [V] like any other
    and comes back as [Some]. *)
Fixpoint get (map : t) (key : K) : option V :=
  match map with
  | [] => None
  | (k, v) :: rest => if decide (k = key) then Some v else get rest key
  end.

(** [map.set(key, value)]: the record of [key] gets the new value and
    keeps its place; a key without a record gets one at the end.  The
    method returns the map object itself, here its new state. *)
Fixpoint set (map : t) (key : K) (value : V) : t :=
  match map with
  | [] => [(key, value)]
  | (k, v) :: rest =>
      if decide (k = key) then (k, value) :: rest
      else (k, v) :: set rest key value
  end.

(** [map.size] and the keys in iteration order. *)
Definition size (map : t) : nat := length map.
Definition keys (map : t) : list K := map.*1.

(** The data-model invariant, in two readings: no key has two records,
    and no key is associated with two values. *)
Definition unique_keys (map : t) : Prop := NoDup (keys map).

Definition unique_keys_dec (map : t) : Decision (unique_keys map).
Proof. unfold unique_keys. apply _. Defined.

Definition at_most_one_value (map : t) : Prop :=
  ∀ k v1 v2, (k, v1) ∈ map → (k, v2) ∈ map → v1 = v2.

(** Two map states that answer every lookup alike. *)
Definition same_associations (m1 m2 : t) : Prop :=
  ∀ k, get m1 k = get m2 k.
End Map.

Arguments t : clear implicits.
#[global] Existing Instance unique_keys_dec.
End Map.

(** ** The built-in [WeakMap]

    A [WeakMap] accepts only objects as keys and compares them by identity.
    Its [has], [get] and [set] are those of [Map] on such keys.  The runtime
    may drop a record once its key is unreachable; the key passed to a call
    is reachable for the whole call, and between calls for as long as the
    caller holds it. *)

Module WeakMap.
(** An object, by identity. *)
Definition object : Type := positive.

Definition t (V : Type) : Type := Map.t object V.
Definition empty {V} : t V := Map.empty.
Definition has {V} (map : t V) (key : object) : bool := Map.has map key.
Definition get {V} (map : t V) (key : object) : option V := Map.get map key.
Definition set {V} (map : t V) (key : object) (value : V) : t V :=
  Map.set map key value.
End WeakMap.

(** ** The helper *)

Module MapLike.
(** What the helper asks of its argument: an object with the methods
    [has], [get] and [set].  [M] is the state of such an object; [has] and
    [get] read it, and [set] returns the object, here the state it is left
    in.  A subclass of [Map] that overrides a method is such an object
    too. *)
Record t (M K V : Type) : Type := Build {
  has : M → K → bool;
  get : M → K → option V;
  set : M → K → V → M
}.
Arguments Build {M K V} _ _ _.
Arguments has {M K V} _ _ _.
Arguments get {M K V} _ _ _.
Arguments set {M K V} _ _ _ _.

Section body.
Context {M K V : Type} (methods : t M K V).

(** [[
    if (map.has(key)) return map.get(key) as V
    return map.set(key, value).get(key) as V
    ]]
    [as V] is a static assertion and does nothing at run time: the result
    is whatever [get] answered, so it is an [option V] here. *)
Definition getOrInsert (map : M) (key : K) (value : V) : option V * M :=
  if has methods map key then (get methods map key, map)
  else
    let map' := set methods map key value in
    (get methods map' key, map').
End body.

Section receivers.
Context {K V : Type} `{EqDecision K}.

(** The built-in [Map]. *)
Definition of_Map : t (Map.t K V) K V := Build Map.has Map.get Map.set.

(** A subclass of [Map] that stores [coerce value] for [value]:
    [[
    class extends Map { set(key, value) { return super.set(key, coerce(value)) } }
    ]] *)
Definition coercing (coerce : V → V) : t (Map.t K V) K V :=
  Build Map.has Map.get (λ map key value, Map.set map key (coerce value)).
End receivers.
End MapLike.

Section getOrInsert.
Context {K V : Type} `{EqDecision K}.

(** The helper on a built-in [Map]. *)
Definition getOrInsert (map : Map.t K V) (key : K) (value : V)
  : option V * Map.t K V :=
  MapLike.getOrInsert MapLike.of_Map map key value.
End getOrInsert.

(** ** Facts about [has], [get] and [set] *)

Section Map_facts.
Context {K V : Type} `{EqDecision K}.
Implicit Types (m : Map.t K V) (k : K) (v : V).

Lemma has_true_iff m k : Map.has m k = true ↔ is_Some (Map.get m k).
Proof.
  induction m as [|[k0 v0] m IH]; simpl.
  - split; [discriminate | intros [? ?]; discriminate].
  - destruct (decide (k0 = k)); [|exact IH].
    split; [eauto | reflexivity].
Qed.

Lemma has_false_iff m k : Map.has m k = false ↔ Map.get m k = None.
Proof.
  rewrite <- not_true_iff_false, has_true_iff.
  symmetry. apply eq_None_not_Some.
Qed.

Lemma has_keys m k : Map.has m k = true ↔ k ∈ Map.keys m.
Proof.
  unfold Map.keys.
  induction m as [|[k0 v0] m IH]; simpl.
  - rewrite elem_of_nil. split; [discriminate | tauto].
  - rewrite elem_of_cons. destruct (decide (k0 = k)) as [->|Hne].
    + tauto.
    + rewrite IH. split; [tauto | intros [->|?]; [congruence | assumption]].
Qed.

Lemma absent_keys m k : Map.has m k = false ↔ k ∉ Map.keys m.
Proof. rewrite <- not_true_iff_false, has_keys. reflexivity. Qed.

(** What [get] answers is a record of the map. *)
Lemma get_Some_elem_of m k v : Map.get m k = Some v → (k, v) ∈ m.
Proof.
  induction m as [|[k0 v0] m IH]; simpl; [discriminate|].
  destruct (decide (k0 = k)) as [->|Hne].
  - intros [= ->]. apply elem_of_cons. left. reflexivity.
  - intros Hg. apply elem_of_cons. right. exact (IH Hg).
Qed.

Lemma elem_of_keys m k v : (k, v) ∈ m → k ∈ Map.keys m.
Proof.
  intros Hin. unfold Map.keys.
  apply (list_elem_of_fmap_2 fst m (k, v)). exact Hin.
Qed.

(** [set] on a key without a record appends one. *)
Lemma set_absent m k v : Map.has m k = false → Map.set m k v = m ++ [(k, v)].
Proof.
  induction m as [|[k0 v0] m IH]; simpl; [reflexivity|].
  destruct (decide (k0 = k)); [discriminate|].
  intros Hm. rewrite (IH Hm). reflexivity.
Qed.

Lemma get_set_eq m k v : Map.get (Map.set m k v) k = Some v.
Proof.
  induction m as [|[k0 v0] m IH]; simpl.
  - rewrite decide_True by reflexivity. reflexivity.
  - destruct (decide (k0 = k)) as [->|Hne]; simpl.
    + rewrite decide_True by reflexivity. reflexivity.
    + rewrite decide_False by assumption. exact IH.
Qed.

Lemma get_set_ne m k k' v : k ≠ k' → Map.get (Map.set m k v) k' = Map.get m k'.
Proof.
  intros Hkk'.
  induction m as [|[k0 v0] m IH]; simpl.
  - rewrite decide_False by assumption. reflexivity.
  - destruct (decide (k0 = k)) as [->|Hne]; simpl.
    + rewrite !decide_False by assumption. reflexivity.
    + destruct (decide (k0 = k')); [reflexivity | exact IH].
Qed.

Lemma has_set_ne m k k' v : k ≠ k' → Map.has (Map.set m k v) k' = Map.has m k'.
Proof.
  intros Hkk'. apply eq_true_iff_eq.
  rewrite !has_true_iff, get_set_ne by assumption. reflexivity.
Qed.

(** Records in front of a lookup's answer do not matter when they are
    for other keys. *)
Lemma get_app_l m m2 k v :
  Map.get m k = Some v → Map.get (m ++ m2) k = Some v.
Proof.
  induction m as [|[k0 v0] m IH]; simpl; [discriminate|].
  destruct (decide (k0 = k)); [tauto | exact IH].
Qed.

Lemma unique_keys_at_most_one m : Map.unique_keys m → Map.at_most_one_value m.
Proof.
  unfold Map.unique_keys, Map.keys, Map.at_most_one_value.
  induction m as [|[k0 v0] m IH]; simpl; intros Hnd k v1 v2 H1 H2.
  - apply elem_of_nil in H1. contradiction.
  - apply NoDup_cons in Hnd as [Hnotin Hnd].
    apply elem_of_cons in H1. apply elem_of_cons in H2.
    destruct H1 as [E1|H1], H2 as [E2|H2].
    + congruence.
    + injection E1 as -> ->.
      exfalso. apply Hnotin. exact (elem_of_keys _ _ _ H2).
    + injection E2 as -> ->.
      exfalso. apply Hnotin. exact (elem_of_keys _ _ _ H1).
    + exact (IH Hnd k v1 v2 H1 H2).
Qed.

Lemma unique_keys_snoc m k v :
  Map.has m k = false → Map.unique_keys m → Map.unique_keys (m ++ [(k, v)]).
Proof.
  unfold Map.unique_keys, Map.keys. intros Habs Hnd.
  rewrite fmap_app. simpl. apply NoDup_app. split; [exact Hnd|]. split.
  - intros x Hx Hx'. apply list_elem_of_singleton in Hx'. subst x.
    apply absent_keys in Habs. exact (Habs Hx).
  - apply NoDup_singleton.
Qed.

Lemma at_most_one_value_snoc m k v :
  Map.has m k = false →
  Map.at_most_one_value m → Map.at_most_one_value (m ++ [(k, v)]).
Proof.
  intros Habs Hone k' v1 v2 H1 H2.
  apply absent_keys in Habs.
  apply elem_of_app in H1. apply elem_of_app in H2.
  rewrite list_elem_of_singleton in H1. rewrite list_elem_of_singleton in H2.
  destruct H1 as [H1|E1], H2 as [H2|E2].
  - exact (Hone k' v1 v2 H1 H2).
  - injection E2 as -> ->.
    exfalso. apply Habs. exact (elem_of_keys _ _ _ H1).
  - injection E1 as -> ->.
    exfalso. apply Habs. exact (elem_of_keys _ _ _ H2).
  - congruence.
Qed.

(** The two arms of the helper. *)
Lemma getOrInsert_hit m k v :
  Map.has m k = true → getOrInsert m k v = (Map.get m k, m).
Proof.
  unfold getOrInsert, MapLike.getOrInsert. simpl. intros ->. reflexivity.
Qed.

Lemma getOrInsert_miss m k v :
  Map.has m k = false →
  getOrInsert m k v = (Map.get (Map.set m k v) k, Map.set m k v).
Proof.
  unfold getOrInsert, MapLike.getOrInsert. simpl. intros ->. reflexivity.
Qed.

(** The state a call leaves: the state it found, or that state with one
    record for the key at the end. *)
Lemma getOrInsert_state m k v :
  (Map.has m k = true ∧ (getOrInsert m k v).2 = m) ∨
  (Map.has m k = false ∧ (getOrInsert m k v).2 = m ++ [(k, v)]).
Proof.
  destruct (Map.has m k) eqn:Hh.
  - left. rewrite getOrInsert_hit by assumption. auto.
  - right. rewrite getOrInsert_miss, set_absent by assumption. auto.
Qed.
End Map_facts.

(** ** Lookups that agree *)

Section same_associations.
Context {K V : Type} `{EqDecision K}.
Implicit Types (m : Map.t K V) (k : K) (v : V).

Lemma same_associations_has m1 m2 k :
  Map.same_associations m1 m2 → Map.has m1 k = Map.has m2 k.
Proof.
  intros Hsame. apply eq_true_iff_eq.
  rewrite !has_true_iff, (Hsame k). reflexivity.
Qed.

Lemma same_associations_set m1 m2 k v :
  Map.same_associations m1 m2 →
  Map.same_associations (Map.set m1 k v) (Map.set m2 k v).
Proof.
  intros Hsame k'. destruct (decide (k = k')) as [<-|Hne].
  - rewrite !get_set_eq. reflexivity.
  - rewrite !get_set_ne by assumption. apply Hsame.
Qed.
End same_associations.

(** ** The contract of [getOrInsert] *)

Section getOrInsert_spec.
Context {K V : Type} `{EqDecision K}.
Implicit Types (m : Map.t K V) (k : K) (v : V).

(** C1. After [getOrInsert m k v] the map has an association for [k], and
    the value the call returned is the value stored for [k] in the map as
    the call left it. *)
Theorem getOrInsert_present_and_returned m k v :
  Map.has (getOrInsert m k v).2 k = true ∧
  (∃ stored, Map.get (getOrInsert m k v).2 k = Some stored ∧
             (getOrInsert m k v).1 = Some stored) ∧
  (getOrInsert m k v).1 = Map.get (getOrInsert m k v).2 k.
Proof.
  destruct (Map.has m k) eqn:Hh.
  - rewrite getOrInsert_hit by assumption. simpl.
    destruct (proj1 (has_true_iff m k) Hh) as [x Hx].
    rewrite Hx. eauto.
  - rewrite getOrInsert_miss by assumption. simpl.
    rewrite get_set_eq. split; [|eauto].
    apply has_true_iff. rewrite get_set_eq. eauto.
Qed.

(** C2. When [k] is already associated with [v0], [getOrInsert m k v1]
    returns [v0] and leaves the map as it was: the association for [k] is
    unchanged and the fallback [v1] is not stored. *)
Theorem getOrInsert_no_overwrite m k v0 v1 :
  Map.get m k = Some v0 →
  (getOrInsert m k v1).1 = Some v0 ∧
  (getOrInsert m k v1).2 = m ∧
  Map.get (getOrInsert m k v1).2 k = Some v0.
Proof.
  intros Hg.
  assert (Map.has m k = true) as Hh by (apply has_true_iff; eauto).
  rewrite getOrInsert_hit by assumption. simpl. auto.
Qed.

(** C3. When the key is absent, [getOrInsert] associates it with the value
    through the map's own [set], and returns what the map's own [get]
    answers for the key after that insertion: the result is read back from
    the map, not taken from the argument.  This is so for every object
    with [has], [get] and [set]; on a built-in [Map] the insertion appends
    the record [(k, v)], and [k] is then associated with [v]. *)
Theorem getOrInsert_inserts_and_rereads :
  (∀ (M : Type) (methods : MapLike.t M K V) (map : M) (key : K) (value : V),
     MapLike.has methods map key = false →
     (MapLike.getOrInsert methods map key value).2 =
       MapLike.set methods map key value ∧
     (MapLike.getOrInsert methods map key value).1 =
       MapLike.get methods (MapLike.set methods map key value) key) ∧
  (∀ m k v,
     Map.has m k = false →
     (getOrInsert m k v).2 = Map.set m k v ∧
     (getOrInsert m k v).2 = m ++ [(k, v)] ∧
     Map.get (getOrInsert m k v).2 k = Some v ∧
     (getOrInsert m k v).1 = Map.get (Map.set m k v) k).
Proof.
  split.
  - intros M methods map key value Hh.
    unfold MapLike.getOrInsert. rewrite Hh. simpl. split; reflexivity.
  - intros m k v Hh. rewrite getOrInsert_miss by assumption. simpl.
    rewrite get_set_eq. repeat split. apply set_absent. assumption.
Qed.

(** C4. A call changes the map by at most one added record, a record for
    [k] when [k] was absent: no record is removed, no association is
    overwritten, and the associations of the other keys are as before. *)
Theorem getOrInsert_frame m k v :
  ((getOrInsert m k v).2 = m ∨
   (Map.has m k = false ∧ (getOrInsert m k v).2 = m ++ [(k, v)] ∧
    Map.size (getOrInsert m k v).2 = S (Map.size m))) ∧
  (∀ k' v', (k', v') ∈ m → (k', v') ∈ (getOrInsert m k v).2) ∧
  (∀ k' v', Map.get m k' = Some v' →
            Map.get (getOrInsert m k v).2 k' = Some v') ∧
  (∀ k', k' ≠ k →
         Map.get (getOrInsert m k v).2 k' = Map.get m k' ∧
         Map.has (getOrInsert m k v).2 k' = Map.has m k') ∧
  (∀ k' v', (k', v') ∈ (getOrInsert m k v).2 →
            (k', v') ∈ m ∨ (Map.has m k = false ∧ k' = k ∧ v' = v)).
Proof.
  destruct (getOrInsert_state m k v) as [[Hh ->]|[Hh ->]].
  - repeat split; auto.
  - split; [|split; [|split; [|split]]].
    + right. unfold Map.size. rewrite length_app, Nat.add_comm. auto.
    + intros k' v' Hin. apply elem_of_app. left. assumption.
    + intros k' v' Hg. apply get_app_l. assumption.
    + intros k' Hne. rewrite <- set_absent by assumption.
      split; [apply get_set_ne | apply has_set_ne]; congruence.
    + intros k' v' Hin. apply elem_of_app in Hin as [Hin|Hin]; [auto|].
      apply list_elem_of_singleton in Hin. injection Hin as -> ->. auto.
Qed.

(** C5. For [k] absent from the map and [v2] different from [v]: calling
    [getOrInsert m k v] and then [getOrInsert m k v2] returns [v] from
    both calls, the second call leaves the map state as it found it, and
    the map ends up associating [k] with [v], not with [v2]. *)
Theorem getOrInsert_idempotent_insert m k v v2 :
  Map.has m k = false → v2 ≠ v →
  let first := getOrInsert m k v in
  let second := getOrInsert first.2 k v2 in
  first.1 = Some v ∧ second.1 = Some v ∧
  second.2 = first.2 ∧
  Map.get second.2 k = Some v ∧ Map.get second.2 k ≠ Some v2.
Proof.
  intros Hh Hv. simpl.
  rewrite (getOrInsert_miss m k v) by assumption. simpl.
  assert (Map.get (Map.set m k v) k = Some v) as Hg by apply get_set_eq.
  assert (Map.has (Map.set m k v) k = true) as Hh'
    by (apply has_true_iff; eauto).
  rewrite getOrInsert_hit by assumption. simpl. rewrite Hg.
  repeat split. congruence.
Qed.

(** C7. [getOrInsert] is total: every call returns a value.  Neither
    lookup of the body can come back empty: the one after [has] answered
    true, and the one after [set]. *)
Theorem getOrInsert_total m k v :
  (∃ r m', getOrInsert m k v = (Some r, m')) ∧
  (Map.has m k = true → is_Some (Map.get m k)) ∧
  is_Some (Map.get (Map.set m k v) k) ∧
  (getOrInsert m k v).1 ≠ None.
Proof.
  assert (is_Some (Map.get (Map.set m k v) k)) as Hset
    by (rewrite get_set_eq; eauto).
  assert (∃ r m', getOrInsert m k v = (Some r, m')) as Hret.
  { destruct (Map.has m k) eqn:Hh.
    - rewrite getOrInsert_hit by assumption.
      destruct (proj1 (has_true_iff m k) Hh) as [x ->]. eauto.
    - rewrite getOrInsert_miss, get_set_eq by assumption. eauto. }
  split; [exact Hret|]. split; [apply has_true_iff|]. split; [exact Hset|].
  destruct Hret as (r & m' & ->). discriminate.
Qed.

(** C8. A call preserves the invariant of the data model, that at most
    one value is associated with a key: if the map satisfies it before the
    call, it satisfies it after, whether the invariant is read on the
    records' keys or on the key/value pairs. *)
Theorem getOrInsert_preserves_invariant m k v :
  (Map.unique_keys m → Map.unique_keys (getOrInsert m k v).2) ∧
  (Map.at_most_one_value m → Map.at_most_one_value (getOrInsert m k v).2).
Proof.
  destruct (getOrInsert_state m k v) as [[Hh ->]|[Hh ->]].
  - tauto.
  - split; [apply unique_keys_snoc | apply at_most_one_value_snoc];
      assumption.
Qed.

(** C9. [getOrInsert] is deterministic: two calls on equal map states
    with equal keys and equal values return equal values and leave equal
    states.  The same holds up to the maps' answers: on two states that
    answer every lookup alike, the calls return the same value and leave
    states that again answer every lookup alike. *)
Theorem getOrInsert_deterministic m1 m2 k1 k2 v1 v2 :
  k1 = k2 → v1 = v2 →
  (m1 = m2 →
     (getOrInsert m1 k1 v1).1 = (getOrInsert m2 k2 v2).1 ∧
     (getOrInsert m1 k1 v1).2 = (getOrInsert m2 k2 v2).2) ∧
  (Map.same_associations m1 m2 →
     (getOrInsert m1 k1 v1).1 = (getOrInsert m2 k2 v2).1 ∧
     Map.same_associations (getOrInsert m1 k1 v1).2 (getOrInsert m2 k2 v2).2).
Proof.
  intros <- <-. split; [intros <-; auto|].
  intros Hsame. unfold getOrInsert, MapLike.getOrInsert. simpl.
  rewrite <- (same_associations_has m1 m2 k1 Hsame).
  destruct (Map.has m1 k1); simpl.
  - split; [apply Hsame | exact Hsame].
  - rewrite !get_set_eq. split; [reflexivity|].
    apply same_associations_set. exact Hsame.
Qed.

(** C10. On the miss path the call returns the fallback value itself:
    for [k] absent from the map, [getOrInsert m k v] returns exactly [v],
    so reading the value back after the insertion never yields another
    value. *)
Theorem getOrInsert_miss_returns_fallback m k v :
  Map.has m k = false →
  (getOrInsert m k v).1 = Some v ∧
  Map.get (Map.set m k v) k = Some v.
Proof.
  intros Hh. rewrite getOrInsert_miss by assumption. simpl.
  rewrite get_set_eq. auto.
Qed.
End getOrInsert_spec.

(** ** The overload on [WeakMap]

    The one body serves both overloads; on a [WeakMap] it reads as the same
    two lines over [WeakMap]'s methods, so every theorem above holds for it
    at [K := WeakMap.object]. *)

Lemma getOrInsert_WeakMap {V : Type}
    (map : WeakMap.t V) (key : WeakMap.object) (value : V) :
  getOrInsert map key value =
    if WeakMap.has map key then (WeakMap.get map key, map)
    else (WeakMap.get (WeakMap.set map key value) key,
          WeakMap.set map key value).
Proof. reflexivity. Qed.

(** ** The scenario of the specification, and the theorems at work *)

Section scenario.
Local Open Scope Z_scope.
Local Open Scope string_scope.

(** C6. From the empty map: [getOrInsert m "x" 1] returns 1 and the map
    then has "x" -> 1; [getOrInsert m "x" 2] returns 1 and leaves the map
    unchanged; [getOrInsert m "y" 3] returns 3, and the map then has
    "x" -> 1 and "y" -> 3. *)
Theorem getOrInsert_scenario :
  let m0 : Map.t string Z := Map.empty in
  let call1 := getOrInsert m0 "x" 1 in
  let call2 := getOrInsert call1.2 "x" 2 in
  let call3 := getOrInsert call2.2 "y" 3 in
  (call1.1 = Some 1 ∧ call1.2 = [("x", 1)] ∧
   Map.get call1.2 "x" = Some 1) ∧
  (call2.1 = Some 1 ∧ call2.2 = call1.2) ∧
  (call3.1 = Some 3 ∧ call3.2 = [("x", 1); ("y", 3)] ∧
   Map.get call3.2 "x" = Some 1 ∧ Map.get call3.2 "y" = Some 3).
Proof. repeat split; reflexivity. Qed.

Lemma getOrInsert_no_overwrite_witness :
  Map.get [("x", 1)] "x" = Some 1 ∧
  (getOrInsert [("x", 1)] "x" 2).1 = Some 1 ∧
  (getOrInsert [("x", 1)] "x" 2).2 = [("x", 1)] ∧
  Map.get (getOrInsert [("x", 1)] "x" 2).2 "x" = Some 1.
Proof.
  split; [reflexivity|].
  apply (getOrInsert_no_overwrite (K:=string) (V:=Z) [("x", 1)] "x" 1 2).
  reflexivity.
Defined.

Lemma getOrInsert_inserts_and_rereads_witness :
  MapLike.has (MapLike.coercing Z.abs) [("x", 1)] "y" = false ∧
  (MapLike.getOrInsert (MapLike.coercing Z.abs) [("x", 1)] "y" (-3)).2 =
    [("x", 1); ("y", 3)] ∧
  (MapLike.getOrInsert (MapLike.coercing Z.abs) [("x", 1)] "y" (-3)).1 =
    Some 3 ∧
  Map.has [("x", 1)] "y" = false ∧
  (getOrInsert [("x", 1)] "y" (-3)).2 = [("x", 1); ("y", -3)] ∧
  Map.get (getOrInsert [("x", 1)] "y" (-3)).2 "y" = Some (-3) ∧
  (getOrInsert [("x", 1)] "y" (-3)).1 = Some (-3).
Proof.
  destruct (getOrInsert_inserts_and_rereads (K:=string) (V:=Z))
    as [Hany Hmap].
  destruct (Hany _ (MapLike.coercing Z.abs) [("x", 1)] "y" (-3))
    as [Hstate Hresult]; [reflexivity|].
  destruct (Hmap [("x", 1)] "y" (-3))
    as (_ & Hstate' & Hget' & Hresult'); [reflexivity|].
  split; [reflexivity|].
  split; [rewrite Hstate; reflexivity|].
  split; [rewrite Hresult; reflexivity|].
  split; [reflexivity|].
  split; [exact Hstate'|].
  split; [exact Hget' | rewrite Hresult'; reflexivity].
Defined.

Lemma getOrInsert_frame_witness :
  ("x", 1) ∈ (getOrInsert [("x", 1)] "y" 3).2 ∧
  Map.get (getOrInsert [("x", 1)] "y" 3).2 "x" = Some 1 ∧
  Map.get (getOrInsert [("x", 1)] "x" 2).2 "y" = None.
Proof.
  destruct (getOrInsert_frame (K:=string) (V:=Z) [("x", 1)] "y" 3)
    as (_ & Hkeep & Hget & _).
  destruct (getOrInsert_frame (K:=string) (V:=Z) [("x", 1)] "x" 2)
    as (_ & _ & _ & Hother & _).
  split; [apply Hkeep; apply list_elem_of_here|].
  split; [apply Hget; reflexivity|].
  destruct (Hother "y") as [-> _]; [discriminate | reflexivity].
Defined.

Lemma getOrInsert_idempotent_insert_witness :
  Map.has (Map.empty : Map.t string Z) "x" = false ∧ 2 ≠ 1 ∧
  (getOrInsert Map.empty "x" 1).1 = Some 1 ∧
  (getOrInsert (getOrInsert Map.empty "x" 1).2 "x" 2).1 = Some 1 ∧
  (getOrInsert (getOrInsert Map.empty "x" 1).2 "x" 2).2 =
    (getOrInsert Map.empty "x" 1).2 ∧
  Map.get (getOrInsert (getOrInsert Map.empty "x" 1).2 "x" 2).2 "x" = Some 1 ∧
  Map.get (getOrInsert (getOrInsert Map.empty "x" 1).2 "x" 2).2 "x" ≠ Some 2.
Proof.
  split; [reflexivity|]. split; [lia|].
  apply (getOrInsert_idempotent_insert (Map.empty : Map.t string Z) "x" 1 2);
    [reflexivity | lia].
Defined.

Lemma getOrInsert_total_witness :
  (∃ r m', getOrInsert [("x", 1)] "x" 2 = (Some r, m')) ∧
  is_Some (Map.get [("x", 1)] "x") ∧
  (∃ r m', getOrInsert [("x", 1)] "y" 3 = (Some r, m')).
Proof.
  destruct (getOrInsert_total (K:=string) (V:=Z) [("x", 1)] "x" 2)
    as (Hret & Hhit & _).
  destruct (getOrInsert_total (K:=string) (V:=Z) [("x", 1)] "y" 3)
    as (Hret' & _).
  split; [exact Hret|]. split; [apply Hhit; reflexivity | exact Hret'].
Defined.

Lemma getOrInsert_preserves_invariant_witness :
  Map.unique_keys [("x", 1)] ∧
  Map.unique_keys (getOrInsert [("x", 1)] "y" 3).2 ∧
  Map.at_most_one_value (getOrInsert [("x", 1)] "y" 3).2.
Proof.
  assert (Map.unique_keys (K:=string) (V:=Z) [("x", 1)]) as Hu
    by (apply (bool_decide_unpack _); vm_compute; exact I).
  destruct (getOrInsert_preserves_invariant (K:=string) (V:=Z)
              [("x", 1)] "y" 3) as [Hk Hv].
  split; [exact Hu|]. split; [exact (Hk Hu)|].
  apply Hv. apply unique_keys_at_most_one. exact Hu.
Defined.

Lemma getOrInsert_deterministic_witness :
  Map.same_associations [("a", 1); ("b", 2)] [("b", 2); ("a", 1)] ∧
  (getOrInsert [("a", 1); ("b", 2)] "c" 3).1 =
    (getOrInsert [("b", 2); ("a", 1)] "c" 3).1 ∧
  Map.same_associations
    (getOrInsert [("a", 1); ("b", 2)] "c" 3).2
    (getOrInsert [("b", 2); ("a", 1)] "c" 3).2 ∧
  (getOrInsert [("a", 1); ("b", 2)] "c" 3).2 =
    (getOrInsert [("a", 1); ("b", 2)] "c" 3).2.
Proof.
  assert (Map.same_associations (K:=string) (V:=Z)
            [("a", 1); ("b", 2)] [("b", 2); ("a", 1)]) as Hsame.
  { intros k. simpl. repeat case_decide; congruence. }
  destruct (getOrInsert_deterministic (K:=string) (V:=Z)
              [("a", 1); ("b", 2)] [("b", 2); ("a", 1)] "c" "c" 3 3
              eq_refl eq_refl) as [_ Hobs].
  destruct (getOrInsert_deterministic (K:=string) (V:=Z)
              [("a", 1); ("b", 2)] [("a", 1); ("b", 2)] "c" "c" 3 3
              eq_refl eq_refl) as [Heq _].
  split; [exact Hsame|].
  destruct (Hobs Hsame) as [Hr Hs]. split; [exact Hr|]. split; [exact Hs|].
  exact (proj2 (Heq eq_refl)).
Defined.

Lemma getOrInsert_miss_returns_fallback_witness :
  Map.has [("x", 1)] "y" = false ∧
  (getOrInsert [("x", 1)] "y" 3).1 = Some 3 ∧
  Map.get (Map.set [("x", 1)] "y" 3) "y" = Some 3.
Proof.
  split; [reflexivity|].
  apply (getOrInsert_miss_returns_fallback (K:=string) (V:=Z)
           [("x", 1)] "y" 3).
  reflexivity.
Defined.

(** The same calls on a [WeakMap], with objects 1 and 2 as keys. *)
Example getOrInsert_WeakMap_scenario :
  let o1 : WeakMap.object := 1%positive in
  let o2 : WeakMap.object := 2%positive in
  let call1 := getOrInsert (WeakMap.empty : WeakMap.t Z) o1 10 in
  let call2 := getOrInsert call1.2 o1 20 in
  let call3 := getOrInsert call2.2 o2 30 in
  call1.1 = Some 10 ∧ call2.1 = Some 10 ∧ call2.2 = call1.2 ∧
  call3.1 = Some 30 ∧
  WeakMap.get call3.2 o1 = Some 10 ∧ WeakMap.get call3.2 o2 = Some 30.
Proof. repeat split; reflexivity. Qed.
End scenario.

(** ** Calls in sequence

    What follows is about several calls on one map object: the state one
    call leaves is the state the next one finds. *)

Section getOrInsert_sequences.
Context {K V : Type} `{EqDecision K}.
Implicit Types (m : Map.t K V) (k : K) (v : V).
Implicit Types (calls : list (K * V)).

(** The result in one expression: the value found, or else the fallback. *)
Lemma getOrInsert_result m k v :
  (getOrInsert m k v).1 = Some (default v (Map.get m k)).
Proof.
  destruct (Map.has m k) eqn:Hh.
  - rewrite getOrInsert_hit by assumption. simpl.
    destruct (proj1 (has_true_iff m k) Hh) as [x ->]. reflexivity.
  - rewrite getOrInsert_miss, get_set_eq by assumption. simpl.
    apply has_false_iff in Hh. rewrite Hh. reflexivity.
Qed.

(** Every lookup in the state a call leaves. *)
Lemma get_getOrInsert m k v k' :
  Map.get (getOrInsert m k v).2 k' =
    if decide (k' = k) then Some (default v (Map.get m k)) else Map.get m k'.
Proof.
  destruct (decide (k' = k)) as [->|Hne].
  - destruct (Map.has m k) eqn:Hh.
    + rewrite getOrInsert_hit by assumption. simpl.
      destruct (proj1 (has_true_iff m k) Hh) as [x ->]. reflexivity.
    + rewrite getOrInsert_miss by assumption. simpl.
      apply has_false_iff in Hh. rewrite get_set_eq, Hh. reflexivity.
  - destruct (Map.has m k) eqn:Hh.
    + rewrite getOrInsert_hit by assumption. reflexivity.
    + rewrite getOrInsert_miss by assumption. simpl.
      apply get_set_ne. congruence.
Qed.

Lemma has_getOrInsert m k v k' :
  Map.has (getOrInsert m k v).2 k' =
    if decide (k' = k) then true else Map.has m k'.
Proof.
  apply eq_true_iff_eq. rewrite has_true_iff, get_getOrInsert.
  destruct (decide (k' = k)).
  - split; [reflexivity | eauto].
  - symmetry. apply has_true_iff.
Qed.

Lemma getOrInsert_unique_keys m k v :
  Map.unique_keys m → Map.unique_keys (getOrInsert m k v).2.
Proof.
  intros Hu. destruct (getOrInsert_state m k v) as [[Hh ->]|[Hh ->]].
  - exact Hu.
  - apply unique_keys_snoc; assumption.
Qed.

Lemma getOrInsert_size m k v :
  Map.size (getOrInsert m k v).2 ≤ S (Map.size m).
Proof.
  destruct (getOrInsert_state m k v) as [[Hh ->]|[Hh ->]].
  - lia.
  - unfold Map.size. rewrite length_app. simpl. lia.
Qed.

Lemma getOrInsert_leaves m k v :
  (getOrInsert m k v).2 = if Map.has m k then m else m ++ [(k, v)].
Proof.
  destruct (getOrInsert_state m k v) as [[-> ->]|[-> ->]]; reflexivity.
Qed.

(** X1. A second call for the same key changes nothing, whatever fallback
    it is given and whether or not the first call found the key: it returns
    what the first call returned and leaves the state the first call left. *)
Theorem getOrInsert_again m k v v' :
  getOrInsert (getOrInsert m k v).2 k v' = getOrInsert m k v.
Proof.
  rewrite (getOrInsert_hit (getOrInsert m k v).2 k v').
  - rewrite get_getOrInsert, decide_True by reflexivity.
    rewrite <- getOrInsert_result. symmetry. apply surjective_pairing.
  - rewrite has_getOrInsert, decide_True by reflexivity. reflexivity.
Qed.

(** X2. Calls for two different keys commute: in either order each call
    returns the same value, and the two final states hold the same records
    and answer every lookup alike.  The states are equal unless both keys
    were absent, in which case only the order of the two new records
    differs. *)
Theorem getOrInsert_commute m k1 k2 v1 v2 :
  k1 ≠ k2 →
  let a := getOrInsert m k1 v1 in
  let b := getOrInsert a.2 k2 v2 in
  let c := getOrInsert m k2 v2 in
  let d := getOrInsert c.2 k1 v1 in
  a.1 = d.1 ∧ b.1 = c.1 ∧
  b.2 ≡ₚ d.2 ∧ Map.same_associations b.2 d.2 ∧
  (Map.has m k1 = true ∨ Map.has m k2 = true → b.2 = d.2).
Proof.
  intros Hne. simpl.
  assert (Map.has (getOrInsert m k1 v1).2 k2 = Map.has m k2) as Hb
    by (rewrite has_getOrInsert, decide_False by congruence; reflexivity).
  assert (Map.has (getOrInsert m k2 v2).2 k1 = Map.has m k1) as Hd
    by (rewrite has_getOrInsert, decide_False by congruence; reflexivity).
  split; [|split; [|split; [|split]]].
  - rewrite !getOrInsert_result, get_getOrInsert, decide_False by congruence.
    reflexivity.
  - rewrite !getOrInsert_result, get_getOrInsert, decide_False by congruence.
    reflexivity.
  - rewrite (getOrInsert_leaves (getOrInsert m k1 v1).2),
      (getOrInsert_leaves (getOrInsert m k2 v2).2), Hb, Hd,
      !getOrInsert_leaves.
    destruct (Map.has m k1), (Map.has m k2); try reflexivity.
    rewrite <- !(assoc_L (++)). apply Permutation_app_head.
    apply perm_swap.
  - intros k'. rewrite !get_getOrInsert.
    repeat case_decide; congruence.
  - rewrite (getOrInsert_leaves (getOrInsert m k1 v1).2),
      (getOrInsert_leaves (getOrInsert m k2 v2).2), Hb, Hd,
      !getOrInsert_leaves.
    destruct (Map.has m k1), (Map.has m k2); try reflexivity.
    intros [?|?]; discriminate.
Qed.

(** X3. Over any sequence of calls the first writer wins: afterwards a key
    that the map had at the start still has the value it had, and any other
    key has the fallback of the first call made for it, or nothing when no
    call was made for it. *)
Theorem getOrInsert_first_wins calls m k :
  Map.get (foldl (λ st c, (getOrInsert st c.1 c.2).2) m calls) k =
    match Map.get m k with
    | Some x => Some x
    | None => (λ hit, hit.2.2) <$> list_find (λ c, c.1 = k) calls
    end.
Proof.
  revert m. induction calls as [|[k0 v0] calls IH]; intros m; simpl.
  - destruct (Map.get m k); reflexivity.
  - rewrite IH, get_getOrInsert.
    destruct (decide (k = k0)) as [->|Hne].
    + rewrite decide_True by reflexivity.
      destruct (Map.get m k0); reflexivity.
    + rewrite decide_False by congruence.
      destruct (Map.get m k); [reflexivity|].
      destruct (list_find _ calls) as [[i c]|]; reflexivity.
Qed.

(** X4. A map filled from [new Map()] by calls alone never has two records
    for one key, and has at most one record per call made. *)
Theorem getOrInsert_from_empty calls :
  Map.unique_keys
    (foldl (λ st c, (getOrInsert st c.1 c.2).2) (Map.empty : Map.t K V) calls) ∧
  Map.size
    (foldl (λ st c, (getOrInsert st c.1 c.2).2) (Map.empty : Map.t K V) calls)
    ≤ length calls.
Proof.
  assert (∀ m,
    (Map.unique_keys m →
     Map.unique_keys (foldl (λ st c, (getOrInsert st c.1 c.2).2) m calls)) ∧
    Map.size (foldl (λ st c, (getOrInsert st c.1 c.2).2) m calls)
      ≤ Map.size m + length calls) as Hgen.
  { induction calls as [|[k0 v0] calls IH]; intros m; simpl.
    - split; [tauto | lia].
    - destruct (IH (getOrInsert m k0 v0).2) as [IHu IHs]. split.
      + intros Hu. apply IHu, getOrInsert_unique_keys, Hu.
      + pose proof (getOrInsert_size m k0 v0). lia. }
  destruct (Hgen Map.empty) as [Hu Hs]. split.
  - apply Hu. apply NoDup_nil_2.
  - exact Hs.
Qed.

(** X5. One call in terms of lookups: it returns the value the map had for
    the key, or the fallback when it had none; afterwards the key has that
    value, and every other key answers as before. *)
Theorem getOrInsert_lookup_spec m k v :
  (getOrInsert m k v).1 = Some (default v (Map.get m k)) ∧
  (∀ k', Map.get (getOrInsert m k v).2 k' =
           if decide (k' = k) then Some (default v (Map.get m k))
           else Map.get m k').
Proof. split; [apply getOrInsert_result | apply get_getOrInsert]. Qed.
End getOrInsert_sequences.

Section sequences_at_work.
Local Open Scope Z_scope.
Local Open Scope string_scope.

Lemma getOrInsert_commute_witness :
  "x" ≠ "y" ∧
  (getOrInsert [("z", 0)] "x" 1).1 =
    (getOrInsert (getOrInsert [("z", 0)] "y" 2).2 "x" 1).1 ∧
  (getOrInsert (getOrInsert [("z", 0)] "x" 1).2 "y" 2).1 =
    (getOrInsert [("z", 0)] "y" 2).1 ∧
  (getOrInsert (getOrInsert [("z", 0)] "x" 1).2 "y" 2).2 ≡ₚ
    (getOrInsert (getOrInsert [("z", 0)] "y" 2).2 "x" 1).2 ∧
  Map.same_associations
    (getOrInsert (getOrInsert [("z", 0)] "x" 1).2 "y" 2).2
    (getOrInsert (getOrInsert [("z", 0)] "y" 2).2 "x" 1).2.
Proof.
  assert ("x" ≠ "y") as Hne by discriminate.
  split; [exact Hne|].
  destruct (getOrInsert_commute (K:=string) (V:=Z) [("z", 0)] "x" "y" 1 2 Hne)
    as (Ha & Hb & Hperm & Hsame & _).
  repeat split; assumption.
Defined.
End sequences_at_work.
